(** * membarrier-rs, Apple backend: [src/apple/barrier.c]

    A shallow embedding of the heavy process-wide memory barrier that
    [barrier.c] synthesises on Darwin from Mach kernel calls, and the
    properties of its two entry points, [is_supported] and
    [flush_process_write_buffers].

    The C code is a single linear pass over kernel calls with early
    returns.  It is embedded as a computation in a state monad over a
    [World] (the log of kernel calls made so far, and the Mach resources
    the task currently holds), with a second outcome for the C [return]
    statement.  The Mach kernel is outside the repository: it is a
    parameter, an arbitrary function from the call history to the answer
    of the next call.  What a granted request does to the thread it names
    (the interrupt, the fence) happens in the kernel and on the CPU and
    is not part of the program. *)

From stdpp Require Import base decidable numbers list gmultiset.

Local Open Scope Z_scope.

(** ** The Mach interface used by [barrier.c] *)

Module Mach.

(** [kern_return_t] is a C [int]; <mach/kern_return.h> defines
    [KERN_SUCCESS] as 0 and every error as a non-zero code. *)
Abbreviation kern_return_t := Z (only parsing).
Definition KERN_SUCCESS : kern_return_t := 0.

(** Port names ([mach_port_t], hence [thread_act_t]) are 32-bit unsigned
    integers; addresses are [vm_address_t]. *)
Abbreviation mach_port_t := Z (only parsing).
Abbreviation thread_act_t := mach_port_t (only parsing).
Abbreviation vm_address_t := Z (only parsing).
Definition sizeof_thread_act_t : Z := 4.

(** The two thread-state flavors named in the fallback branch, with the
    [_COUNT] constant that goes with each. *)
Inductive thread_state_flavor_t := x86_THREAD_STATE64 | ARM_THREAD_STATE64.
Inductive thread_state_count_t :=
  x86_THREAD_STATE64_COUNT | ARM_THREAD_STATE64_COUNT.

(** The kernel calls of [barrier.c], with the arguments passed in. *)
Inductive Syscall :=
| task_threads (task : mach_port_t)
| thread_get_register_pointer_values (thread : thread_act_t) (registers : Z)
| thread_get_state (thread : thread_act_t)
    (flavor : thread_state_flavor_t) (count : thread_state_count_t)
| mach_port_deallocate (task : mach_port_t) (name : mach_port_t)
| vm_deallocate (task : mach_port_t) (address : vm_address_t) (size : Z).

(** One entry of the call log: the call and the status it returned. *)
Record Event := Ev { call : Syscall; result : kern_return_t }.

(** What [task_threads] writes through its two out-parameters: the
    address of the freshly allocated array and its elements;
    [thread_count] is the number of elements. *)
Record thread_act_array_t :=
  { base : vm_address_t; elems : list thread_act_t }.

(** The kernel, as seen from one thread of the task: the status of the
    next call and the array [task_threads] would hand out, both as
    functions of everything that was called before. *)
Record Kernel :=
  { kern_return : list Event → Syscall → kern_return_t;
    thread_list : list Event → thread_act_array_t }.

(** The resources of the task that the calls touch: for every port
    name the number of user references held ([ports]), and the live
    kernel-allocated regions ([regions]). *)
Record World :=
  { trace : list Event;
    ports : gmultiset mach_port_t;
    regions : gmultiset vm_address_t }.

#[global] Instance thread_state_flavor_eq_dec : EqDecision thread_state_flavor_t.
Proof. solve_decision. Defined.
#[global] Instance thread_state_count_eq_dec : EqDecision thread_state_count_t.
Proof. solve_decision. Defined.
#[global] Instance Syscall_eq_dec : EqDecision Syscall.
Proof. solve_decision. Defined.
#[global] Instance Event_eq_dec : EqDecision Event.
Proof. solve_decision. Defined.

Definition succeeded (e : Event) : Prop := result e = KERN_SUCCESS.

(** Effect of a call on the task's resources.  A failed call changes
    nothing.  A successful [task_threads] gives the task one reference
    per listed thread and one region; [mach_port_deallocate] drops one
    reference to the name; [vm_deallocate] frees the region. *)
Definition acquire (a : thread_act_array_t) (w : World) : World :=
  {| trace := trace w;
     ports := ports w ⊎ list_to_set_disj (elems a);
     regions := regions w ⊎ {[+ base a +]} |}.

Definition release_port (name : mach_port_t) (w : World) : World :=
  {| trace := trace w;
     ports := ports w ∖ {[+ name +]};
     regions := regions w |}.

Definition release_region (address : vm_address_t) (w : World) : World :=
  {| trace := trace w;
     ports := ports w;
     regions := regions w ∖ {[+ address +]} |}.

Definition effect (c : Syscall) (out : thread_act_array_t) (w : World) : World :=
  match c with
  | task_threads _ => acquire out w
  | mach_port_deallocate _ name => release_port name w
  | vm_deallocate _ address _ => release_region address w
  | thread_get_register_pointer_values _ _ | thread_get_state _ _ _ => w
  end.

Definition log (e : Event) (w : World) : World :=
  {| trace := trace w ++ [e]; ports := ports w; regions := regions w |}.

(** Performing one call: ask the kernel, apply the effect on success,
    log the call. *)
Definition trap (k : Kernel) (c : Syscall) (w : World) : kern_return_t * World :=
  let kr := kern_return k (trace w) c in
  let w1 := if decide (kr = KERN_SUCCESS)
            then effect c (thread_list k (trace w)) w else w in
  (kr, log (Ev c kr) w1).

End Mach.
Export Mach.

(** ** The build target and the running OS *)

(** The compiler defines at most one of [__x86_64__] and [__aarch64__]. *)
Inductive Target := x86_64 | aarch64 | other_target.

Definition defined__x86_64__ (t : Target) : bool :=
  match t with x86_64 => true | _ => false end.
Definition defined__aarch64__ (t : Target) : bool :=
  match t with aarch64 => true | _ => false end.

Inductive Platform := macOS | iOS | other_platform.

Record OSBuild := { platform : Platform; major : Z; minor : Z }.

(** The condition of line 45, [__builtin_available] with the versions
    macOS 10.14 and iOS 12 and a final star: a check of the running OS
    version against the version listed for its platform; the star makes
    it true on every platform that is not listed. *)
Definition builtin_available_macOS_10_14_iOS_12 (o : OSBuild) : bool :=
  match platform o with
  | macOS => (10 <? major o) || ((major o =? 10) && (14 <=? minor o))
  | iOS => 12 <=? major o
  | other_platform => true
  end.

(** Everything outside the program that a call depends on. *)
Record Host :=
  { target : Target;
    os : OSBuild;
    mach_task_self : mach_port_t;
    kernel : Kernel }.

(** ** Computations with early return *)

Inductive Step (A : Type) :=
| Next (a : A)
| Return (status : Z).
Arguments Next {A} a.
Arguments Return {A} status.

Definition M (A : Type) : Type := World → Step A * World.

Definition return_ {A} (status : Z) : M A := fun w => (Return status, w).

#[global] Instance M_ret : MRet M := fun A a w => (Next a, w).
#[global] Instance M_bind : MBind M := fun A B f m w =>
  match m w with
  | (Next a, w') => f a w'
  | (Return status, w') => (Return status, w')
  end.

(** A C function of result type [int] whose body is [m]. *)
Definition function (m : M Z) (w : World) : Z * World :=
  match m w with
  | (Next status, w') | (Return status, w') => (status, w')
  end.

Definition syscall (h : Host) (c : Syscall) : M kern_return_t :=
  fun w => let (kr, w') := trap (kernel h) c w in (Next kr, w').

(** [ASSERT_SUCCESS(expr, ret_on_err)] *)
Definition ASSERT_SUCCESS (expr : M kern_return_t) (ret_on_err : Z) : M unit :=
  kr ← expr;
  if decide (kr ≠ KERN_SUCCESS) then return_ ret_on_err else mret tt.

(** [for (mach_msg_type_number_t i = start; i < start + n; ++i) body(i)].
    [n] is the number of iterations left, [thread_count - i]; the counter
    is a 32-bit unsigned integer and stays below [thread_count], so it
    never wraps. *)
Fixpoint for_loop (n : nat) (i : nat) (body : nat → M unit) : M unit :=
  match n with
  | O => mret tt
  | S n' => body i;; for_loop n' (S i) body
  end.

(** ** [barrier.c] *)

Module Barrier.

(** [int is_supported()] *)
Definition is_supported (h : Host) : World → Z * World :=
  function (
    if defined__x86_64__ (target h) || defined__aarch64__ (target h)
    then return_ 1
    else return_ 0).

(** Lines 45-66: the call that forces the thread through a barrier. *)
Definition force_barrier (h : Host) (thread : thread_act_t) : M kern_return_t :=
  if builtin_available_macOS_10_14_iOS_12 (os h) then
    let registers := 128 in
    syscall h (thread_get_register_pointer_values thread registers)
  else
    if defined__x86_64__ (target h) then
      let count := x86_THREAD_STATE64_COUNT in
      syscall h (thread_get_state thread x86_THREAD_STATE64 count)
    else if defined__aarch64__ (target h) then
      let count := ARM_THREAD_STATE64_COUNT in
      syscall h (thread_get_state thread ARM_THREAD_STATE64 count)
    else
      return_ (-2).

(** The body of the loop, lines 43-69, at index [i]. *)
Definition loop_body (h : Host) (thread_acts : list thread_act_t) (i : nat) : M unit :=
  let thread := thread_acts !!! i in
  syscall_succ ← force_barrier h thread;
  ASSERT_SUCCESS (mret syscall_succ) (-3);;
  ASSERT_SUCCESS (syscall h (mach_port_deallocate (mach_task_self h) thread)) (-4).

(** [int flush_process_write_buffers()].  [thread_acts] is what the
    kernel writes through the two out-parameters of [task_threads], the
    first call of the function; it is read only after that call was
    granted.  The size passed to [vm_deallocate] is a product in
    [size_t]: 64 bits wide on x86-64 and ARM64, where a 32-bit count
    times 4 does not wrap. *)
Definition flush_process_write_buffers (h : Host) : World → Z * World :=
  fun w =>
    let thread_acts := thread_list (kernel h) (trace w) in
    let thread_count := length (elems thread_acts) in
    function (
      ASSERT_SUCCESS (syscall h (task_threads (mach_task_self h))) (-1);;
      for_loop thread_count 0 (loop_body h (elems thread_acts));;
      ASSERT_SUCCESS
        (syscall h (vm_deallocate (mach_task_self h) (base thread_acts)
                      (Z.of_nat thread_count * sizeof_thread_act_t))) (-5);;
      return_ 0) w.

End Barrier.
Export Barrier.

(** ** Concrete hosts, used to run the code *)

Module Examples.

Definition w0 : World := {| trace := []; ports := ∅; regions := ∅ |}.

Definition two_threads : thread_act_array_t := {| base := 4096; elems := [7; 8] |}.
Definition no_threads : thread_act_array_t := {| base := 4096; elems := [] |}.

(** A kernel that grants every call but those [refused] says no to. *)
Definition kernel_refusing (refused : Syscall → bool) (a : thread_act_array_t) : Kernel :=
  {| kern_return := fun _ c => if refused c then 5 else KERN_SUCCESS;
     thread_list := fun _ => a |}.

Definition refuse_nothing (c : Syscall) : bool := false.
Definition refuse_enumeration (c : Syscall) : bool :=
  match c with task_threads _ => true | _ => false end.
Definition refuse_fence_on (t : thread_act_t) (c : Syscall) : bool :=
  match c with
  | thread_get_register_pointer_values t' _ | thread_get_state t' _ _ => bool_decide (t' = t)
  | _ => false
  end.
Definition refuse_release_of (t : thread_act_t) (c : Syscall) : bool :=
  match c with mach_port_deallocate _ t' => bool_decide (t' = t) | _ => false end.
Definition refuse_list_deallocation (c : Syscall) : bool :=
  match c with vm_deallocate _ _ _ => true | _ => false end.

Definition mojave : OSBuild := {| platform := macOS; major := 10; minor := 14 |}.
Definition sierra : OSBuild := {| platform := macOS; major := 10; minor := 12 |}.
Definition ios_12 : OSBuild := {| platform := iOS; major := 12; minor := 0 |}.

Definition host (t : Target) (o : OSBuild) (refused : Syscall → bool)
    (a : thread_act_array_t) : Host :=
  {| target := t; os := o; mach_task_self := 259; kernel := kernel_refusing refused a |}.

Definition granted_x86_64_mojave : Host := host x86_64 mojave refuse_nothing two_threads.
Definition granted_aarch64_sierra : Host := host aarch64 sierra refuse_nothing two_threads.
Definition enumeration_refused : Host := host x86_64 mojave refuse_enumeration two_threads.
Definition first_fence_refused : Host := host x86_64 mojave (refuse_fence_on 7) two_threads.
Definition second_fence_refused : Host := host aarch64 sierra (refuse_fence_on 8) two_threads.
Definition release_refused : Host := host x86_64 mojave (refuse_release_of 7) two_threads.
Definition list_deallocation_refused : Host :=
  host x86_64 sierra refuse_list_deallocation two_threads.

(** Hosts built for a target that is neither x86-64 nor ARM64. *)
Definition other_on_ios_12 : Host := host other_target ios_12 refuse_nothing two_threads.
Definition other_on_mojave : Host := host other_target mojave refuse_nothing two_threads.
Definition other_on_sierra : Host := host other_target sierra refuse_nothing two_threads.
Definition other_on_sierra_refused : Host :=
  host other_target sierra refuse_enumeration two_threads.
Definition other_on_sierra_no_threads : Host :=
  host other_target sierra refuse_nothing no_threads.


End Examples.

(** ** Vocabulary of the properties *)

(** The names the specification gives to the values that
    [flush_process_write_buffers] returns, each with the value of its
    [return] statement in the source. *)
Inductive Status :=
| Success
| EnumerationFailed
| ArchitectureUnsupported
| PerThreadFenceFailed
| HandleReleaseFailed
| ListDeallocationFailed.

Definition status_code (s : Status) : Z :=
  match s with
  | Success => 0
  | EnumerationFailed => -1
  | ArchitectureUnsupported => -2
  | PerThreadFenceFailed => -3
  | HandleReleaseFailed => -4
  | ListDeallocationFailed => -5
  end.

(** OS builds on either side of the versions named in line 45. *)
Definition at_least_macOS_10_14 (o : OSBuild) : Prop :=
  platform o = macOS ∧ (10 < major o ∨ (major o = 10 ∧ 14 ≤ minor o)).
Definition at_least_iOS_12 (o : OSBuild) : Prop :=
  platform o = iOS ∧ 12 ≤ major o.
Definition recent_os_build (o : OSBuild) : Prop :=
  at_least_macOS_10_14 o ∨ at_least_iOS_12 o.

Definition before_macOS_10_14 (o : OSBuild) : Prop :=
  platform o = macOS ∧ (major o < 10 ∨ (major o = 10 ∧ minor o < 14)).
Definition before_iOS_12 (o : OSBuild) : Prop :=
  platform o = iOS ∧ major o < 12.
Definition older_os_build (o : OSBuild) : Prop :=
  before_macOS_10_14 o ∨ before_iOS_12 o.

(** The events an invocation added to the log. *)
Definition invocation_events (w w' : World) : list Event :=
  drop (length (trace w)) (trace w').

(** Which calls are which step of the algorithm. *)
Definition is_fence (c : Syscall) : bool :=
  match c with
  | thread_get_register_pointer_values _ _ | thread_get_state _ _ _ => true
  | _ => false
  end.
Definition is_release (c : Syscall) : bool :=
  match c with mach_port_deallocate _ _ => true | _ => false end.

Definition fence_on (thread : thread_act_t) (c : Syscall) : Prop :=
  match c with
  | thread_get_register_pointer_values t _ | thread_get_state t _ _ => t = thread
  | _ => False
  end.

(** The requests the code makes. *)
Definition enumeration_request (h : Host) : Syscall := task_threads (mach_task_self h).

Definition fence_request (h : Host) (thread : thread_act_t) : option Syscall :=
  if builtin_available_macOS_10_14_iOS_12 (os h) then
    Some (thread_get_register_pointer_values thread 128)
  else match target h with
       | x86_64 => Some (thread_get_state thread x86_THREAD_STATE64 x86_THREAD_STATE64_COUNT)
       | aarch64 => Some (thread_get_state thread ARM_THREAD_STATE64 ARM_THREAD_STATE64_COUNT)
       | other_target => None
       end.

Definition release_request (h : Host) (thread : thread_act_t) : Syscall :=
  mach_port_deallocate (mach_task_self h) thread.

Definition list_request (h : Host) (a : thread_act_array_t) : Syscall :=
  vm_deallocate (mach_task_self h) (base a)
    (Z.of_nat (length (elems a)) * sizeof_thread_act_t).

(** The fence requests among the calls of an invocation, in the order
    they were made. *)
Definition fence_requests (evs : list Event) : list Syscall :=
  filter (fun c => is_fence c) (call <$> evs).

(** The number of releases the kernel granted: one per iteration of the
    loop that ran to its end. *)
Definition granted_releases (evs : list Event) : nat :=
  length (filter (fun e => is_release (call e) ∧ result e = KERN_SUCCESS) evs).

(** The four steps of the algorithm, read off the events of an
    invocation: the step was made and the kernel granted it. *)
Definition enumeration_succeeded (h : Host) (evs : list Event) : Prop :=
  Ev (enumeration_request h) KERN_SUCCESS ∈ evs.
Definition every_fence_succeeded (threads : list thread_act_t) (evs : list Event) : Prop :=
  ∀ t, t ∈ threads → ∃ c, fence_on t c ∧ Ev c KERN_SUCCESS ∈ evs.
Definition every_release_succeeded (h : Host) (threads : list thread_act_t)
    (evs : list Event) : Prop :=
  ∀ t, t ∈ threads → Ev (release_request h t) KERN_SUCCESS ∈ evs.
Definition list_deallocation_succeeded (h : Host) (a : thread_act_array_t)
    (evs : list Event) : Prop :=
  Ev (list_request h a) KERN_SUCCESS ∈ evs.

(** An invocation that takes [w] to [w'] has released every thread handle
    it obtained, and the list: the task holds the ports and the regions
    it held at entry. *)
Definition released_everything (w w' : World) : Prop :=
  ports w' = ports w ∧ regions w' = regions w.

(** An invocation fails with the [ArchitectureUnsupported] status before
    any work: no kernel call made and no resource touched. *)
Definition fails_unsupported_without_work (h : Host) (w : World) : Prop :=
  fst (flush_process_write_buffers h w) = status_code ArchitectureUnsupported ∧
  snd (flush_process_write_buffers h w) = w.

(** ** The exits of an invocation *)

(** The events of the iterations that ran to their end on [past]. *)
Definition completed (h : Host) (past : list thread_act_t) : list Event :=
  flat_map (fun t => match fence_request h t with
                     | Some c => [Ev c KERN_SUCCESS; Ev (release_request h t) KERN_SUCCESS]
                     | None => []
                     end) past.

(** The world after these iterations. *)
Definition processed (h : Host) (past : list thread_act_t) (w : World) : World :=
  {| trace := trace w ++ completed h past;
     ports := ports w ∖ list_to_set_disj past;
     regions := regions w |}.

(** The world after a granted enumeration. *)
Definition enumerated (h : Host) (a : thread_act_array_t) (w : World) : World :=
  log (Ev (enumeration_request h) KERN_SUCCESS) (acquire a w).

Definition has_fence_path (h : Host) (t : thread_act_t) : Prop :=
  is_Some (fence_request h t).

(** How the loop over [todo] can end when started in [w]. *)
Inductive loop_exit (h : Host) (w : World) (todo : list thread_act_t) :
  Step unit * World → Prop :=
| loop_finished :
    Forall (has_fence_path h) todo →
    loop_exit h w todo (Next tt, processed h todo w)
| loop_unsupported past t rest :
    todo = past ++ t :: rest →
    Forall (has_fence_path h) past →
    fence_request h t = None →
    loop_exit h w todo (Return (-2), processed h past w)
| loop_fence_failed past t rest c kr :
    todo = past ++ t :: rest →
    Forall (has_fence_path h) past →
    fence_request h t = Some c →
    kr ≠ KERN_SUCCESS →
    loop_exit h w todo (Return (-3), log (Ev c kr) (processed h past w))
| loop_release_failed past t rest c kr :
    todo = past ++ t :: rest →
    Forall (has_fence_path h) past →
    fence_request h t = Some c →
    kr ≠ KERN_SUCCESS →
    loop_exit h w todo
      (Return (-4),
       log (Ev (release_request h t) kr) (log (Ev c KERN_SUCCESS) (processed h past w))).

(** How an invocation can end: the status returned, the events logged,
    the thread handles and the list it still holds.  [a] is the array the
    kernel hands out and [enum] its answer to the enumeration request. *)
Inductive exits (h : Host) (a : thread_act_array_t) (enum : kern_return_t) :
  Z → list Event → list thread_act_t → bool → Prop :=
| exits_enumeration_failed :
    enum ≠ KERN_SUCCESS →
    exits h a enum (-1) [Ev (enumeration_request h) enum] [] false
| exits_unsupported past t rest :
    enum = KERN_SUCCESS →
    elems a = past ++ t :: rest →
    Forall (has_fence_path h) past →
    fence_request h t = None →
    exits h a enum (-2)
      (Ev (enumeration_request h) KERN_SUCCESS :: completed h past)
      (t :: rest) true
| exits_fence_failed past t rest c kr :
    enum = KERN_SUCCESS →
    elems a = past ++ t :: rest →
    Forall (has_fence_path h) past →
    fence_request h t = Some c →
    kr ≠ KERN_SUCCESS →
    exits h a enum (-3)
      (Ev (enumeration_request h) KERN_SUCCESS :: completed h past ++ [Ev c kr])
      (t :: rest) true
| exits_release_failed past t rest c kr :
    enum = KERN_SUCCESS →
    elems a = past ++ t :: rest →
    Forall (has_fence_path h) past →
    fence_request h t = Some c →
    kr ≠ KERN_SUCCESS →
    exits h a enum (-4)
      (Ev (enumeration_request h) KERN_SUCCESS
         :: (completed h past ++ [Ev c KERN_SUCCESS]) ++ [Ev (release_request h t) kr])
      (t :: rest) true
| exits_list_deallocation_failed kr :
    enum = KERN_SUCCESS →
    Forall (has_fence_path h) (elems a) →
    kr ≠ KERN_SUCCESS →
    exits h a enum (-5)
      (Ev (enumeration_request h) KERN_SUCCESS
         :: completed h (elems a) ++ [Ev (list_request h a) kr])
      [] true
| exits_success :
    enum = KERN_SUCCESS →
    Forall (has_fence_path h) (elems a) →
    exits h a enum 0
      (Ev (enumeration_request h) KERN_SUCCESS
         :: completed h (elems a) ++ [Ev (list_request h a) KERN_SUCCESS])
      [] false.

(** The ports and regions held at the end of an invocation that started
    in [w] and leaves [held] and, when [list_held], the list unreleased. *)
Definition holds (a : thread_act_array_t) (w w' : World)
    (held : list thread_act_t) (list_held : bool) : Prop :=
  ports w' = ports w ⊎ list_to_set_disj held ∧
  regions w' = regions w ⊎ (if list_held then {[+ base a +]} else ∅).


(** ** Vocabulary of the further properties *)

(** The status that [ASSERT_SUCCESS] returns for the call it guards:
    lines 39, 68, 69 and 73. *)
Definition status_of_refused (c : Syscall) : Z :=
  match c with
  | task_threads _ => -1
  | thread_get_register_pointer_values _ _ | thread_get_state _ _ _ => -3
  | mach_port_deallocate _ _ => -4
  | vm_deallocate _ _ _ => -5
  end.

(** A call stays within what the invocation was given: it names the
    calling task, a thread of the enumerated array [a], the address of
    [a] and the size of [a]. *)
Definition addresses_own (h : Host) (a : thread_act_array_t) (c : Syscall) : Prop :=
  match c with
  | task_threads task => task = mach_task_self h
  | thread_get_register_pointer_values thread registers =>
      thread ∈ elems a ∧ registers = 128
  | thread_get_state thread _ _ => thread ∈ elems a
  | mach_port_deallocate task name => task = mach_task_self h ∧ name ∈ elems a
  | vm_deallocate task address size =>
      task = mach_task_self h ∧ address = base a ∧
      size = Z.of_nat (length (elems a)) * 4
  end.

(** Every release in [evs] comes right after a granted fence request on
    the thread whose handle it releases. *)
Definition released_after_fence (evs : list Event) : Prop :=
  ∀ pre e post task t,
    evs = pre ++ e :: post →
    call e = mach_port_deallocate task t →
    ∃ pre' c, pre = pre' ++ [Ev c KERN_SUCCESS] ∧ fence_on t c.

(** ** The OS check *)

Lemma recent_os_build_available o :
  recent_os_build o → builtin_available_macOS_10_14_iOS_12 o = true.
Proof.
  unfold builtin_available_macOS_10_14_iOS_12.
  intros [[-> Hv]|[-> Hv]]; lia.
Qed.

Lemma older_os_build_unavailable o :
  older_os_build o ↔ builtin_available_macOS_10_14_iOS_12 o = false.
Proof.
  unfold builtin_available_macOS_10_14_iOS_12, older_os_build,
    before_macOS_10_14, before_iOS_12.
  destruct (platform o); intuition (first [discriminate | lia]).
Qed.

(** ** Running the code *)

Ltac run := unfold mbind, M_bind, mret, M_ret, return_, syscall, trap in *; simpl in *.

Section Running.
Context (h : Host).

Lemma fence_request_available t :
  builtin_available_macOS_10_14_iOS_12 (os h) = true →
  fence_request h t = Some (thread_get_register_pointer_values t 128).
Proof. unfold fence_request. by intros ->. Qed.

Lemma fence_request_is_fence t c :
  fence_request h t = Some c → is_fence c = true ∧ fence_on t c.
Proof.
  unfold fence_request.
  destruct (builtin_available_macOS_10_14_iOS_12 (os h)); [|destruct (target h)];
    intros [= <-]; done.
Qed.

(** Whether there is a fence path does not depend on the thread. *)
Lemma fence_request_None t u : fence_request h t = None → fence_request h u = None.
Proof.
  unfold fence_request.
  destruct (builtin_available_macOS_10_14_iOS_12 (os h)); [done|].
  by destruct (target h).
Qed.

Lemma force_barrier_run t w :
  force_barrier h t w =
  match fence_request h t with
  | Some c => (Next (kern_return (kernel h) (trace w) c),
               log (Ev c (kern_return (kernel h) (trace w) c)) w)
  | None => (Return (-2), w)
  end.
Proof.
  unfold force_barrier, fence_request.
  destruct (builtin_available_macOS_10_14_iOS_12 (os h)).
  - run. by case_decide.
  - destruct (target h); run; try done; by case_decide.
Qed.

Lemma loop_body_run ths i t w :
  ths !!! i = t →
  loop_body h ths i w =
  match fence_request h t with
  | None => (Return (-2), w)
  | Some c =>
      let kr := kern_return (kernel h) (trace w) c in
      let w1 := log (Ev c kr) w in
      if decide (kr = KERN_SUCCESS) then
        let kr' := kern_return (kernel h) (trace w1) (release_request h t) in
        if decide (kr' = KERN_SUCCESS)
        then (Next tt, log (Ev (release_request h t) kr') (release_port t w1))
        else (Return (-4), log (Ev (release_request h t) kr') w1)
      else (Return (-3), w1)
  end.
Proof.
  intros <-. unfold loop_body, ASSERT_SUCCESS.
  unfold mbind at 1, M_bind at 1. rewrite force_barrier_run.
  destruct (fence_request h (ths !!! i)) as [c|]; [|reflexivity].
  run. repeat case_decide; done.
Qed.

Lemma flush_process_write_buffers_run w :
  flush_process_write_buffers h w =
  let a := thread_list (kernel h) (trace w) in
  let enum := kern_return (kernel h) (trace w) (enumeration_request h) in
  if decide (enum = KERN_SUCCESS) then
    match for_loop (length (elems a)) 0 (loop_body h (elems a)) (enumerated h a w) with
    | (Next _, w1) =>
        let kr := kern_return (kernel h) (trace w1) (list_request h a) in
        if decide (kr = KERN_SUCCESS)
        then (0, log (Ev (list_request h a) kr) (release_region (base a) w1))
        else (-5, log (Ev (list_request h a) kr) w1)
    | (Return status, w1) => (status, w1)
    end
  else (-1, log (Ev (enumeration_request h) enum) w).
Proof.
  unfold flush_process_write_buffers, function, ASSERT_SUCCESS.
  unfold enumeration_request, enumerated.
  unfold mbind at 1, M_bind at 1. run.
  destruct (decide (kern_return (kernel h) (trace w) (task_threads (mach_task_self h))
                    = KERN_SUCCESS)) as [Hkr|Hkr].
  - rewrite decide_False by (intros Hne; done). simpl. rewrite Hkr.
    unfold log at 1. simpl.
    destruct (for_loop _ _ _ _) as [[[]|status] w1]; [|done]. simpl.
    unfold list_request. repeat case_decide; done.
  - by rewrite decide_True by done.
Qed.

(** *** The loop *)

Lemma world_eq (w w' : World) :
  trace w = trace w' → ports w = ports w' → regions w = regions w' → w = w'.
Proof. destruct w, w'; simpl; by intros -> -> ->. Qed.

Lemma completed_app d1 d2 : completed h (d1 ++ d2) = completed h d1 ++ completed h d2.
Proof. apply flat_map_app. Qed.

Lemma processed_nil w : processed h [] w = w.
Proof. apply world_eq; simpl; [apply app_nil_r | multiset_solver | done]. Qed.

Lemma processed_app d1 d2 w :
  processed h (d1 ++ d2) w = processed h d2 (processed h d1 w).
Proof.
  apply world_eq; simpl; [| |done].
  - by rewrite completed_app, app_assoc.
  - rewrite list_to_set_disj_app. multiset_solver.
Qed.

Lemma processed_one t c w :
  fence_request h t = Some c →
  processed h [t] w =
  log (Ev (release_request h t) KERN_SUCCESS)
    (release_port t (log (Ev c KERN_SUCCESS) w)).
Proof.
  intros Hc. apply world_eq; simpl; [| |done].
  - rewrite Hc. simpl. by rewrite <- app_assoc.
  - multiset_solver.
Qed.

Lemma loop_exit_cons w t c todo r :
  fence_request h t = Some c →
  loop_exit h (processed h [t] w) todo r →
  loop_exit h w (t :: todo) r.
Proof.
  intros Hc Hexit.
  assert (Hshift : ∀ past, processed h past (processed h [t] w)
                           = processed h (t :: past) w)
    by (intros past; symmetry; apply (processed_app [t] past)).
  assert (Hpath : ∀ past, Forall (has_fence_path h) past →
                          Forall (has_fence_path h) (t :: past))
    by (intros past Hpast; constructor; [by exists c|done]).
  destruct Hexit as [Hall|past u rest -> Hpast Hu|past u rest c' kr -> Hpast Hu Hkr
                    |past u rest c' kr -> Hpast Hu Hkr];
    rewrite Hshift.
  - apply loop_finished. by apply Hpath.
  - apply (loop_unsupported h w (t :: past ++ u :: rest) (t :: past) u rest); auto.
  - apply (loop_fence_failed h w (t :: past ++ u :: rest) (t :: past) u rest); auto.
  - apply (loop_release_failed h w (t :: past ++ u :: rest) (t :: past) u rest); auto.
Qed.

(** The loop of lines 42-70, started at index [length pre] with the
    threads [todo] still to go, ends in one of the four ways. *)
Lemma for_loop_exit todo : ∀ pre w,
  loop_exit h w todo
    (for_loop (length todo) (length pre) (loop_body h (pre ++ todo)) w).
Proof.
  induction todo as [|t todo IH]; intros pre w.
  - pose proof (loop_finished h w [] (Forall_nil_2 _)) as Hexit.
    by rewrite processed_nil in Hexit.
  - simpl. unfold mbind at 1, M_bind at 1.
    rewrite (loop_body_run _ _ t) by apply list_lookup_total_middle, eq_refl.
    destruct (fence_request h t) as [c|] eqn:Hc.
    + simpl. case_decide as Hkr.
      * rewrite Hkr. case_decide as Hkr'.
        -- rewrite Hkr', <- (processed_one t c w Hc).
           apply (loop_exit_cons w t c); [done|].
           specialize (IH (pre ++ [t]) (processed h [t] w)).
           by rewrite length_app, Nat.add_1_r, <- app_assoc in IH.
        -- pose proof (loop_release_failed h w (t :: todo) [] t todo c _
                         eq_refl (Forall_nil_2 _) Hc Hkr') as Hexit.
           by rewrite processed_nil in Hexit.
      * pose proof (loop_fence_failed h w (t :: todo) [] t todo c _
                       eq_refl (Forall_nil_2 _) Hc Hkr) as Hexit.
        by rewrite processed_nil in Hexit.
    + pose proof (loop_unsupported h w (t :: todo) [] t todo
                    eq_refl (Forall_nil_2 _) Hc) as Hexit.
      by rewrite processed_nil in Hexit.
Qed.

(** *** The whole invocation *)

Lemma invocation_events_app w w' evs :
  trace w' = trace w ++ evs → invocation_events w w' = evs.
Proof. unfold invocation_events. intros ->. apply drop_app_length. Qed.

Lemma held_after_iterations (a : thread_act_array_t) (p : gmultiset mach_port_t)
    past held :
  elems a = past ++ held →
  (p ⊎ list_to_set_disj (elems a)) ∖ list_to_set_disj past
  = p ⊎ list_to_set_disj held.
Proof. intros ->. rewrite list_to_set_disj_app. multiset_solver. Qed.

Lemma holds_after_iterations a w past t rest w' :
  elems a = past ++ t :: rest →
  ports w' = ports (processed h past (enumerated h a w)) →
  regions w' = regions (processed h past (enumerated h a w)) →
  holds a w w' (t :: rest) true.
Proof.
  intros Ha Hports Hregions. split; [|done].
  rewrite Hports. by apply held_after_iterations.
Qed.

(** Every invocation ends in one of the ways of [exits]. *)
Lemma flush_process_write_buffers_exits w :
  let a := thread_list (kernel h) (trace w) in
  let r := flush_process_write_buffers h w in
  ∃ held list_held,
    exits h a (kern_return (kernel h) (trace w) (enumeration_request h))
      (fst r) (invocation_events w (snd r)) held list_held ∧
    holds a w (snd r) held list_held.
Proof.
  intros a r. subst r. rewrite flush_process_write_buffers_run. fold a. simpl.
  destruct (decide (_ = KERN_SUCCESS)) as [Henum|Henum].
  - pose proof (for_loop_exit (elems a) [] (enumerated h a w)) as Hloop.
    simpl in Hloop.
    destruct (for_loop _ _ _ _) as [[[]|status] w1].
    + inversion Hloop as [Hall Hw1| | |]. clear Hloop. subst w1. simpl.
      match goal with
      | |- context [decide (?x = KERN_SUCCESS)] =>
          generalize x; intros kr;
          destruct (decide (kr = KERN_SUCCESS)) as [->|Hkr]; simpl
      end.
      * exists [], false. split; [|unfold holds; simpl; split; multiset_solver].
        rewrite (invocation_events_app _ _
                   (Ev (enumeration_request h) KERN_SUCCESS
                      :: completed h (elems a)
                      ++ [Ev (list_request h a) KERN_SUCCESS]))
          by (simpl; by rewrite <- !app_assoc).
        by apply exits_success.
      * exists [], true. split; [|unfold holds; simpl; split; multiset_solver].
        rewrite (invocation_events_app _ _
                   (Ev (enumeration_request h) KERN_SUCCESS
                      :: completed h (elems a) ++ [Ev (list_request h a) kr]))
          by (simpl; by rewrite <- !app_assoc).
        by apply exits_list_deallocation_failed.
    + inversion Hloop as [|past t rest Ha Hpast Hc|past t rest c kr Ha Hpast Hc Hkr
                         |past t rest c kr Ha Hpast Hc Hkr]; clear Hloop; subst;
        exists (t :: rest), true; simpl.
      * split; [|by apply (holds_after_iterations a w past t rest)].
        rewrite (invocation_events_app _ _
                   (Ev (enumeration_request h) KERN_SUCCESS :: completed h past))
          by (simpl; by rewrite <- !app_assoc).
        by apply (exits_unsupported h a _ past t rest).
      * split; [|by apply (holds_after_iterations a w past t rest)].
        rewrite (invocation_events_app _ _
                   (Ev (enumeration_request h) KERN_SUCCESS
                      :: completed h past ++ [Ev c kr]))
          by (simpl; by rewrite <- !app_assoc).
        by apply (exits_fence_failed h a _ past t rest).
      * split; [|by apply (holds_after_iterations a w past t rest)].
        rewrite (invocation_events_app _ _
                   (Ev (enumeration_request h) KERN_SUCCESS
                      :: (completed h past ++ [Ev c KERN_SUCCESS])
                      ++ [Ev (release_request h t) kr]))
          by (simpl; by rewrite <- !app_assoc).
        by apply (exits_release_failed h a _ past t rest).
  - exists [], false. simpl. split; [|unfold holds; simpl; split; multiset_solver].
    rewrite (invocation_events_app _ _ [Ev (enumeration_request h) _]) by done.
    by apply exits_enumeration_failed.
Qed.

End Running.

(** ** The events of an invocation *)

Section Events.
Context (h : Host).

(** Every event of a completed iteration is a granted fence request or
    a granted release. *)
Lemma elem_of_completed past e :
  e ∈ completed h past →
  ∃ t, t ∈ past ∧ result e = KERN_SUCCESS ∧
       (fence_request h t = Some (call e) ∨
        (has_fence_path h t ∧ call e = release_request h t)).
Proof.
  unfold completed, has_fence_path. rewrite list_elem_of_In, in_flat_map.
  intros (t & Ht & He). exists t. rewrite list_elem_of_In. split; [done|].
  destruct (fence_request h t) as [c|]; simpl in He; [|done].
  destruct He as [<-|[<-|[]]]; simpl; eauto.
Qed.

Lemma completed_succeeded past : Forall succeeded (completed h past).
Proof.
  apply list.Forall_forall. intros e He.
  by destruct (elem_of_completed past e He) as (t & _ & Hr & _).
Qed.

Lemma completed_elem_of past t c :
  t ∈ past → fence_request h t = Some c →
  Ev c KERN_SUCCESS ∈ completed h past ∧
  Ev (release_request h t) KERN_SUCCESS ∈ completed h past.
Proof.
  intros Ht Hc. unfold completed. rewrite !list_elem_of_In, !in_flat_map.
  rewrite list_elem_of_In in Ht.
  split; exists t; rewrite Hc; simpl; eauto.
Qed.

(** A host without any fence path completes no iteration. *)
Lemma no_fence_path_no_past t past :
  fence_request h t = None → Forall (has_fence_path h) past → past = [].
Proof.
  intros Ht Hpast. destruct Hpast as [|u past [c Hc] _]; [done|].
  by rewrite (fence_request_None h t u Ht) in Hc.
Qed.

Lemma completed_no_list_deallocation a past :
  Ev (list_request h a) KERN_SUCCESS ∉ completed h past.
Proof.
  intros (t & _ & _ & [Hc|[_ Hc]])%elem_of_completed; simpl in Hc.
  - by apply fence_request_is_fence in Hc as [? _].
  - done.
Qed.

(** The first call that was not granted is the last call made. *)
Lemma failed_event_last (good pre post : list Event) (x e : Event) :
  Forall succeeded good → ¬ succeeded e →
  good ++ [x] = pre ++ e :: post →
  pre = good ∧ e = x ∧ post = [].
Proof.
  intros Hgood He. revert pre.
  induction Hgood as [|g good Hg _ IH]; intros [|p pre] Heq; simplify_eq/=.
  - done.
  - by destruct pre.
  - done.
  - destruct (IH pre) as (-> & -> & ->); done.
Qed.

Lemma all_succeeded_no_failure (good pre post : list Event) (e : Event) :
  Forall succeeded good → ¬ succeeded e → good ≠ pre ++ e :: post.
Proof.
  intros Hgood He ->. apply Forall_app in Hgood as [_ Hgood].
  by inversion Hgood.
Qed.

(** The list is deallocated on the way to [return 0] only. *)
Lemma list_deallocation_granted_only_on_success a enum status evs held list_held :
  exits h a enum status evs held list_held →
  Ev (list_request h a) KERN_SUCCESS ∈ evs → status = 0.
Proof.
  pose proof (completed_no_list_deallocation a) as Hcompleted.
  destruct 1 as [Hkr|past t rest _ _ _ Hnone|past t rest c kr _ _ _ Hc Hkr
                |past t rest c kr _ _ _ Hc Hkr|kr _ _ Hkr| _ _]; [| | | | |done];
    rewrite ?elem_of_cons, ?elem_of_app, ?elem_of_cons, ?elem_of_nil;
    intros Hin; exfalso.
  - by destruct Hin as [?|[]].
  - destruct Hin as [?|?]; [done|by eapply Hcompleted].
  - destruct Hin as [?|[?|[[= <- <-]|[]]]]; [done|by eapply Hcompleted|].
    by apply fence_request_is_fence in Hc as [? _].
  - destruct Hin as [?|[[?|[[= <-]|[]]]|[?|[]]]]; [done|by eapply Hcompleted| |done].
    by apply fence_request_is_fence in Hc as [? _].
  - destruct Hin as [?|[?|[[= <-]|[]]]]; [done|by eapply Hcompleted|done].
Qed.

(** *** Fence requests *)







(** *** Granted releases *)

Lemma granted_releases_app evs1 evs2 :
  granted_releases (evs1 ++ evs2) = (granted_releases evs1 + granted_releases evs2)%nat.
Proof. unfold granted_releases. by rewrite list.filter_app, length_app. Qed.

Lemma granted_releases_other e evs :
  is_release (call e) = false ∨ result e ≠ KERN_SUCCESS →
  granted_releases (e :: evs) = granted_releases evs.
Proof.
  intros He. unfold granted_releases.
  rewrite filter_cons_False; [done|].
  intros [Hrelease Hresult]. destruct He as [He|He]; [|done].
  by rewrite He in Hrelease.
Qed.

Lemma granted_releases_completed past :
  Forall (has_fence_path h) past → granted_releases (completed h past) = length past.
Proof.
  induction 1 as [|t past [c Hc] _ IH]; [done|].
  change (t :: past) with ([t] ++ past) at 1.
  rewrite completed_app, granted_releases_app, IH. simpl. rewrite Hc. simpl.
  rewrite granted_releases_other
    by (left; by destruct (fence_request_is_fence h t c Hc) as [?%(f_equal negb) _];
        destruct c).
  unfold granted_releases. by rewrite filter_cons_True by done.
Qed.

(** The handles still held are among those of the threads whose
    iteration did not run to its end. *)
Lemma held_after_granted_releases a enum status evs held list_held :
  exits h a enum status evs held list_held →
  held = [] ∨ held = drop (granted_releases evs) (elems a).
Proof.
  assert (Hdrop : ∀ past t rest tail,
             Forall (has_fence_path h) past →
             granted_releases tail = 0%nat →
             t :: rest
             = drop (granted_releases
                       (Ev (enumeration_request h) KERN_SUCCESS
                          :: completed h past ++ tail))
                 (past ++ t :: rest)).
  { intros past t rest tail Hpast Htail.
    rewrite granted_releases_other by (by left).
    rewrite granted_releases_app, granted_releases_completed, Htail by done.
    by rewrite Nat.add_0_r, drop_app_length. }
  destruct 1 as [Hkr|past t rest _ Ha Hpast Hnone|past t rest c kr _ Ha Hpast Hc Hkr
                |past t rest c kr _ Ha Hpast Hc Hkr|kr _ _ Hkr| _ _]; auto; right;
    rewrite Ha.
  - rewrite <- (app_nil_r (completed h past)). by apply Hdrop.
  - apply Hdrop; [done|].
    apply fence_request_is_fence in Hc as [Hc _].
    rewrite granted_releases_other; [done|]. left. by destruct c.
  - rewrite <- app_assoc. apply Hdrop; [done|]. simpl.
    apply fence_request_is_fence in Hc as [Hc _].
    rewrite granted_releases_other by (left; by destruct c).
    by rewrite granted_releases_other by (by right).
Qed.

(** *** How far the loop got *)





End Events.

(** ** The properties *)

(** C1 does not hold as stated: when the fence request on the first of
    two threads is refused, the call returns with both thread handles and
    the list still held. *)
Lemma released_everything_counterexample :
  fst (flush_process_write_buffers Examples.first_fence_refused Examples.w0)
  = status_code PerThreadFenceFailed ∧
  multiplicity 7
    (ports (snd (flush_process_write_buffers Examples.first_fence_refused Examples.w0)))
  = 1%nat ∧
  multiplicity 8
    (ports (snd (flush_process_write_buffers Examples.first_fence_refused Examples.w0)))
  = 1%nat ∧
  multiplicity 4096
    (regions (snd (flush_process_write_buffers Examples.first_fence_refused Examples.w0)))
  = 1%nat ∧
  ¬ released_everything Examples.w0
      (snd (flush_process_write_buffers Examples.first_fence_refused Examples.w0)).
Proof.
  split_and!; try (vm_compute; reflexivity).
  intros [Hports _]. apply (f_equal (multiplicity 7)) in Hports.
  vm_compute in Hports. discriminate.
Qed.

(** C1, as the code has it: when the call returns success, and when it
    returns because the enumeration was refused and nothing was obtained,
    the task holds the ports and regions it held at entry: every thread
    handle obtained and the list have been released.  On every return,
    the handles of the threads whose loop iteration ran to its end have
    been released: of the enumerated handles, the task holds at most
    those that come after as many handles as releases were granted. *)
Theorem handles_released_on_success_and_after_completed_iterations
    (h : Host) (w : World) :
  let a := thread_list (kernel h) (trace w) in
  let r := flush_process_write_buffers h w in
  let evs := invocation_events w (snd r) in
  (fst r = status_code Success ∨ fst r = status_code EnumerationFailed →
   released_everything w (snd r)) ∧
  ports (snd r) ⊆ ports w ⊎ list_to_set_disj (drop (granted_releases evs) (elems a)).
Proof.
  intros a r evs.
  destruct (flush_process_write_buffers_exits h w)
    as (held & list_held & Hexit & Hports & Hregions).
  fold a r evs in Hexit, Hports, Hregions.
  pose proof (held_after_granted_releases h a _ _ _ _ _ Hexit) as Hheld.
  split.
  - unfold released_everything. rewrite Hports, Hregions. clear Hheld Hports Hregions.
    intros Hr. destruct Hexit; simpl in Hr; destruct Hr as [Hr|Hr]; try discriminate;
      simpl; split; multiset_solver.
  - rewrite Hports. destruct Hheld as [->| <-]; [|done]. simpl. multiset_solver.
Qed.

Lemma handles_released_on_success_and_after_completed_iterations_witness :
  fst (flush_process_write_buffers Examples.granted_aarch64_sierra Examples.w0)
  = status_code Success ∧
  released_everything Examples.w0
    (snd (flush_process_write_buffers Examples.granted_aarch64_sierra Examples.w0)).
Proof.
  assert (Hr : fst (flush_process_write_buffers Examples.granted_aarch64_sierra Examples.w0)
               = status_code Success) by (vm_compute; reflexivity).
  split; [exact Hr|].
  exact (proj1 (handles_released_on_success_and_after_completed_iterations
                  Examples.granted_aarch64_sierra Examples.w0) (or_introl Hr)).
Defined.

(** C3: [is_supported] returns 1 exactly when the build target is 64-bit
    x86 or 64-bit ARM and 0 for every other target; it leaves the world as
    it found it, and its result is the same whatever the OS build, the
    kernel and the world are. *)
Theorem is_supported_iff_x86_64_or_aarch64 (h : Host) (w : World) :
  (fst (is_supported h w) = 1 ↔ target h = x86_64 ∨ target h = aarch64) ∧
  (fst (is_supported h w) = 0 ↔ ¬ (target h = x86_64 ∨ target h = aarch64)) ∧
  snd (is_supported h w) = w ∧
  ∀ (o : OSBuild) (task : mach_port_t) (k : Kernel) (w' : World),
    fst (is_supported
           {| target := target h; os := o; mach_task_self := task; kernel := k |} w')
    = fst (is_supported h w).
Proof.
  unfold is_supported, function, return_. simpl.
  destruct (target h); simpl; intuition (first [discriminate | eauto]).
Qed.

(** C4: the call returns 0 exactly when the enumeration, a fence request
    on every enumerated thread, the release of every enumerated handle and
    the deallocation of the list were all made and granted; and when it
    returns 0 no kernel call of the invocation was refused. *)
Theorem success_iff_all_steps_succeeded (h : Host) (w : World) :
  let a := thread_list (kernel h) (trace w) in
  let r := flush_process_write_buffers h w in
  let evs := invocation_events w (snd r) in
  (fst r = status_code Success ↔
     enumeration_succeeded h evs ∧
     every_fence_succeeded (elems a) evs ∧
     every_release_succeeded h (elems a) evs ∧
     list_deallocation_succeeded h a evs) ∧
  (fst r = status_code Success → Forall succeeded evs).
Proof.
  intros a r evs.
  destruct (flush_process_write_buffers_exits h w) as (held & list_held & Hexit & _).
  fold a r evs in Hexit. clearbody evs.
  unfold enumeration_succeeded, every_fence_succeeded, every_release_succeeded,
    list_deallocation_succeeded.
  split; [split|].
  - intros Hr. rewrite Hr in Hexit. simpl in Hexit.
    inversion Hexit as [| | | | |_ Hall]. split_and!.
    + apply elem_of_cons. by left.
    + intros t Ht.
      destruct (proj1 (list.Forall_forall _ _) Hall t Ht) as [c Hc].
      exists c. split; [by apply (fence_request_is_fence h)|].
      apply elem_of_cons. right. apply elem_of_app. left.
      by apply (completed_elem_of h (elems a) t c).
    + intros t Ht.
      destruct (proj1 (list.Forall_forall _ _) Hall t Ht) as [c Hc].
      apply elem_of_cons. right. apply elem_of_app. left.
      by apply (completed_elem_of h (elems a) t c).
    + apply elem_of_cons. right. apply elem_of_app. right.
      by apply list_elem_of_singleton.
  - intros (_ & _ & _ & Hlist).
    by apply (list_deallocation_granted_only_on_success h a _ _ evs held list_held Hexit).
  - intros Hr. rewrite Hr in Hexit. simpl in Hexit.
    inversion Hexit as [| | | | |_ Hall].
    constructor; [done|]. apply Forall_app. split; [apply completed_succeeded|].
    by constructor.
Qed.

Lemma success_iff_all_steps_succeeded_witness :
  fst (flush_process_write_buffers Examples.granted_x86_64_mojave Examples.w0)
  = status_code Success ∧
  Forall succeeded
    (invocation_events Examples.w0
       (snd (flush_process_write_buffers Examples.granted_x86_64_mojave Examples.w0))).
Proof.
  assert (Hr : fst (flush_process_write_buffers Examples.granted_x86_64_mojave Examples.w0)
               = status_code Success) by (vm_compute; reflexivity).
  split; [exact Hr|].
  exact (proj2 (success_iff_all_steps_succeeded
                  Examples.granted_x86_64_mojave Examples.w0) Hr).
Defined.

(** C5: a fence request (on either path) that the kernel does not grant
    is the last kernel call of the invocation, so no fence is attempted
    on a later thread, and the call returns the [PerThreadFenceFailed]
    status. *)
Theorem fence_failure_aborts (h : Host) (w : World) (pre post : list Event) (e : Event) :
  invocation_events w (snd (flush_process_write_buffers h w)) = pre ++ e :: post →
  is_fence (call e) = true →
  result e ≠ KERN_SUCCESS →
  fst (flush_process_write_buffers h w) = status_code PerThreadFenceFailed ∧ post = [].
Proof.
  intros Hevs Hfence Hfailed.
  destruct (flush_process_write_buffers_exits h w) as (held & list_held & Hexit & _).
  rewrite Hevs in Hexit.
  remember (pre ++ e :: post) as evs eqn:Hsplit.
  assert (Hgood : ∀ past,
             Forall succeeded (Ev (enumeration_request h) KERN_SUCCESS :: completed h past))
    by (intros past; constructor; [done|apply completed_succeeded]).
  destruct Hexit as [Hkr|past t rest _ _ _ Hnone|past t rest c kr _ _ _ Hc Hkr
                    |past t rest c kr _ _ _ Hc Hkr|kr _ _ Hkr| _ _].
  - apply (failed_event_last []) in Hsplit as (_ & -> & _); done.
  - by apply all_succeeded_no_failure in Hsplit.
  - rewrite app_comm_cons in Hsplit.
    apply failed_event_last in Hsplit as (_ & _ & ->); done.
  - rewrite !app_comm_cons in Hsplit.
    apply failed_event_last in Hsplit as (_ & -> & _); [done| |done].
    rewrite <- app_comm_cons. constructor; [done|].
    apply Forall_app. split; [apply completed_succeeded|by constructor].
  - rewrite app_comm_cons in Hsplit.
    apply failed_event_last in Hsplit as (_ & -> & _); done.
  - rewrite app_comm_cons in Hsplit.
    apply all_succeeded_no_failure in Hsplit; [done| |done].
    apply Forall_app. split; [done|by constructor].
Qed.

Lemma fence_failure_aborts_witness :
  (invocation_events Examples.w0
     (snd (flush_process_write_buffers Examples.second_fence_refused Examples.w0))
   = [Ev (task_threads 259) 0;
      Ev (thread_get_state 7 ARM_THREAD_STATE64 ARM_THREAD_STATE64_COUNT) 0;
      Ev (mach_port_deallocate 259 7) 0]
     ++ Ev (thread_get_state 8 ARM_THREAD_STATE64 ARM_THREAD_STATE64_COUNT) 5 :: [] ∧
   is_fence (call (Ev (thread_get_state 8 ARM_THREAD_STATE64 ARM_THREAD_STATE64_COUNT) 5))
   = true ∧
   result (Ev (thread_get_state 8 ARM_THREAD_STATE64 ARM_THREAD_STATE64_COUNT) 5)
   ≠ KERN_SUCCESS) ∧
  fst (flush_process_write_buffers Examples.second_fence_refused Examples.w0)
  = status_code PerThreadFenceFailed.
Proof.
  assert (Hevs : invocation_events Examples.w0
                   (snd (flush_process_write_buffers Examples.second_fence_refused
                           Examples.w0))
                 = [Ev (task_threads 259) 0;
                    Ev (thread_get_state 7 ARM_THREAD_STATE64 ARM_THREAD_STATE64_COUNT) 0;
                    Ev (mach_port_deallocate 259 7) 0]
                   ++ Ev (thread_get_state 8 ARM_THREAD_STATE64 ARM_THREAD_STATE64_COUNT) 5
                   :: [])
    by (vm_compute; reflexivity).
  assert (Hfailed : result (Ev (thread_get_state 8 ARM_THREAD_STATE64
                                  ARM_THREAD_STATE64_COUNT) 5) ≠ KERN_SUCCESS)
    by (vm_compute; discriminate).
  split; [split; [exact Hevs|split; [reflexivity|exact Hfailed]]|].
  exact (proj1 (fence_failure_aborts Examples.second_fence_refused Examples.w0
                  _ [] _ Hevs eq_refl Hfailed)).
Defined.

(** C6 does not hold as stated.  On a target that is neither x86-64 nor
    ARM64: on a recent OS the call runs the preferred path on every
    thread and returns 0; on an older OS it returns -1 when the
    enumeration is refused and 0 when no thread is listed; and when it
    does return -2, the enumeration has been made and its handles are
    held. *)
Lemma fails_unsupported_without_work_counterexample :
  (fst (is_supported Examples.other_on_mojave Examples.w0) = 0 ∧
   fst (flush_process_write_buffers Examples.other_on_mojave Examples.w0)
   = status_code Success ∧
   fence_requests
     (invocation_events Examples.w0
        (snd (flush_process_write_buffers Examples.other_on_mojave Examples.w0)))
   = [thread_get_register_pointer_values 7 128; thread_get_register_pointer_values 8 128] ∧
   ¬ fails_unsupported_without_work Examples.other_on_mojave Examples.w0) ∧
  (fst (flush_process_write_buffers Examples.other_on_sierra_refused Examples.w0)
   = status_code EnumerationFailed ∧
   ¬ fails_unsupported_without_work Examples.other_on_sierra_refused Examples.w0) ∧
  (fst (flush_process_write_buffers Examples.other_on_sierra_no_threads Examples.w0)
   = status_code Success ∧
   ¬ fails_unsupported_without_work Examples.other_on_sierra_no_threads Examples.w0) ∧
  (fst (flush_process_write_buffers Examples.other_on_sierra Examples.w0)
   = status_code ArchitectureUnsupported ∧
   invocation_events Examples.w0
     (snd (flush_process_write_buffers Examples.other_on_sierra Examples.w0))
   = [Ev (task_threads 259) KERN_SUCCESS] ∧
   multiplicity 7
     (ports (snd (flush_process_write_buffers Examples.other_on_sierra Examples.w0)))
   = 1%nat ∧
   ¬ fails_unsupported_without_work Examples.other_on_sierra Examples.w0).
Proof.
  assert (Hstatus : ∀ h status,
             fst (flush_process_write_buffers h Examples.w0) = status →
             status ≠ -2 → ¬ fails_unsupported_without_work h Examples.w0).
  { intros h status Hr Hne [Hs _]. simpl in Hs. congruence. }
  split_and!; try (vm_compute; reflexivity).
  - apply (Hstatus _ 0); [vm_compute; reflexivity|discriminate].
  - apply (Hstatus _ (-1)); [vm_compute; reflexivity|discriminate].
  - apply (Hstatus _ 0); [vm_compute; reflexivity|discriminate].
  - intros [_ Hw]. apply (f_equal trace) in Hw. vm_compute in Hw. discriminate.
Qed.

(** C6, as the code has it: on a build target without a fallback
    accessor, on an OS build older than macOS 10.14 / iOS 12, and when the
    enumeration is granted and lists at least one thread, the call returns
    the [ArchitectureUnsupported] status; the enumeration is the only
    kernel call it made: no fence request, no release, no deallocation. *)
Theorem unsupported_target_fails_after_enumeration (h : Host) (w : World) :
  target h = other_target →
  older_os_build (os h) →
  kern_return (kernel h) (trace w) (enumeration_request h) = KERN_SUCCESS →
  elems (thread_list (kernel h) (trace w)) ≠ [] →
  fst (flush_process_write_buffers h w) = status_code ArchitectureUnsupported ∧
  invocation_events w (snd (flush_process_write_buffers h w))
  = [Ev (enumeration_request h) KERN_SUCCESS].
Proof.
  intros Htarget Hos%older_os_build_unavailable Henum Hthreads.
  assert (Hnone : ∀ t, fence_request h t = None)
    by (intros t; unfold fence_request; by rewrite Hos, Htarget).
  assert (Hsome : ¬ Forall (has_fence_path h)
                      (elems (thread_list (kernel h) (trace w)))).
  { destruct (elems _) as [|t ths]; [done|].
    intros Hall. inversion Hall as [|? ? [c Hc] _]. by rewrite Hnone in Hc. }
  destruct (flush_process_write_buffers_exits h w) as (held & list_held & Hexit & _).
  destruct Hexit as [Hfailed|past t rest _ _ Hpast _|past t rest c kr _ _ _ Hc _
                    |past t rest c kr _ _ _ Hc _|kr _ Hall _| _ Hall];
    try done; try (by rewrite Hnone in Hc).
  by rewrite (no_fence_path_no_past h t past (Hnone t) Hpast).
Qed.

Lemma unsupported_target_fails_after_enumeration_witness :
  (target Examples.other_on_sierra = other_target ∧
   older_os_build (os Examples.other_on_sierra) ∧
   kern_return (kernel Examples.other_on_sierra) (trace Examples.w0)
     (enumeration_request Examples.other_on_sierra) = KERN_SUCCESS ∧
   elems (thread_list (kernel Examples.other_on_sierra) (trace Examples.w0)) ≠ []) ∧
  fst (flush_process_write_buffers Examples.other_on_sierra Examples.w0)
  = status_code ArchitectureUnsupported.
Proof.
  assert (Hos : older_os_build (os Examples.other_on_sierra))
    by (left; split; [reflexivity|right; simpl; lia]).
  assert (Hthreads : elems (thread_list (kernel Examples.other_on_sierra)
                              (trace Examples.w0)) ≠ [])
    by discriminate.
  split; [split; [reflexivity|split; [exact Hos|split; [reflexivity|exact Hthreads]]]|].
  exact (proj1 (unsupported_target_fails_after_enumeration Examples.other_on_sierra
                  Examples.w0 eq_refl Hos eq_refl Hthreads)).
Defined.




(** C8: when the kernel rejects the enumeration request, the call returns
    the [EnumerationFailed] status at once: the rejected request is the
    only kernel call of the invocation (no fence request, no release, no
    deallocation), and the task's ports and regions are as before. *)
Theorem enumeration_rejected_fails_immediately (h : Host) (w : World) :
  kern_return (kernel h) (trace w) (enumeration_request h) ≠ KERN_SUCCESS →
  fst (flush_process_write_buffers h w) = status_code EnumerationFailed ∧
  invocation_events w (snd (flush_process_write_buffers h w))
  = [Ev (enumeration_request h) (kern_return (kernel h) (trace w) (enumeration_request h))] ∧
  ports (snd (flush_process_write_buffers h w)) = ports w ∧
  regions (snd (flush_process_write_buffers h w)) = regions w.
Proof.
  intros Henum.
  destruct (flush_process_write_buffers_exits h w)
    as (held & list_held & Hexit & Hports & Hregions).
  destruct Hexit; try done.
  rewrite Hports, Hregions. simpl. split_and!; [done|done|multiset_solver|multiset_solver].
Qed.

Lemma enumeration_rejected_fails_immediately_witness :
  kern_return (kernel Examples.enumeration_refused) (trace Examples.w0)
    (enumeration_request Examples.enumeration_refused) ≠ KERN_SUCCESS ∧
  fst (flush_process_write_buffers Examples.enumeration_refused Examples.w0)
  = status_code EnumerationFailed.
Proof.
  assert (Henum : kern_return (kernel Examples.enumeration_refused) (trace Examples.w0)
                    (enumeration_request Examples.enumeration_refused) ≠ KERN_SUCCESS)
    by (vm_compute; discriminate).
  split; [exact Henum|].
  exact (proj1 (enumeration_rejected_fails_immediately
                  Examples.enumeration_refused Examples.w0 Henum)).
Defined.

(** C9: every invocation returns the code of one of the six statuses; the
    six codes are pairwise distinct; and each of them is returned by some
    invocation. *)
Theorem status_codes_closed_taxonomy :
  (∀ (h : Host) (w : World), ∃ s, fst (flush_process_write_buffers h w) = status_code s) ∧
  (∀ s s', status_code s = status_code s' → s = s') ∧
  (∀ s, ∃ (h : Host) (w : World), fst (flush_process_write_buffers h w) = status_code s).
Proof.
  split_and!.
  - intros h w.
    destruct (flush_process_write_buffers_exits h w) as (held & list_held & Hexit & _).
    destruct Hexit.
    + by exists EnumerationFailed.
    + by exists ArchitectureUnsupported.
    + by exists PerThreadFenceFailed.
    + by exists HandleReleaseFailed.
    + by exists ListDeallocationFailed.
    + by exists Success.
  - by intros [] [].
  - intros [].
    + exists Examples.granted_x86_64_mojave, Examples.w0. by vm_compute.
    + exists Examples.enumeration_refused, Examples.w0. by vm_compute.
    + exists Examples.other_on_sierra, Examples.w0. by vm_compute.
    + exists Examples.second_fence_refused, Examples.w0. by vm_compute.
    + exists Examples.release_refused, Examples.w0. by vm_compute.
    + exists Examples.list_deallocation_refused, Examples.w0. by vm_compute.
Qed.

(** C10: on macOS 10.14 or later and on iOS 12 or later the call never
    returns the [ArchitectureUnsupported] status, whatever the build
    target is. *)
Theorem recent_os_never_architecture_unsupported (h : Host) (w : World) :
  recent_os_build (os h) →
  fst (flush_process_write_buffers h w) ≠ status_code ArchitectureUnsupported.
Proof.
  intros Hrecent%recent_os_build_available.
  destruct (flush_process_write_buffers_exits h w) as (held & list_held & Hexit & _).
  destruct Hexit as [| past t rest _ _ _ Hnone | | | |]; simpl; try discriminate.
  by rewrite (fence_request_available h t Hrecent) in Hnone.
Qed.

Lemma recent_os_never_architecture_unsupported_witness :
  recent_os_build (os Examples.other_on_ios_12) ∧
  fst (flush_process_write_buffers Examples.other_on_ios_12 Examples.w0)
  ≠ status_code ArchitectureUnsupported.
Proof.
  assert (Hrecent : recent_os_build (os Examples.other_on_ios_12))
    by (right; split; [reflexivity|simpl; lia]).
  split; [exact Hrecent|].
  exact (recent_os_never_architecture_unsupported Examples.other_on_ios_12
           Examples.w0 Hrecent).
Defined.

(** ** Further properties of [flush_process_write_buffers] *)

Section Further.
Context (h : Host).

Lemma length_completed past :
  Forall (has_fence_path h) past → length (completed h past) = (2 * length past)%nat.
Proof.
  induction 1 as [|t past [c Hc] _ IH]; [done|].
  change (t :: past) with ([t] ++ past) at 1.
  rewrite completed_app, length_app, IH. simpl. rewrite Hc. simpl. lia.
Qed.

Lemma is_fence_status_of_refused c : is_fence c = true → status_of_refused c = -3.
Proof. by destruct c. Qed.

Lemma is_fence_not_release c : is_fence c = true → is_release c = false.
Proof. by destruct c. Qed.

Lemma fence_request_addresses_own a t c :
  t ∈ elems a → fence_request h t = Some c → addresses_own h a c.
Proof.
  unfold fence_request. intros Ht.
  destruct (builtin_available_macOS_10_14_iOS_12 (os h)); [|destruct (target h)];
    intros [= <-]; simpl; auto.
Qed.

Lemma completed_addresses_own a past :
  past ⊆ elems a → Forall (fun e => addresses_own h a (call e)) (completed h past).
Proof.
  intros Hpast. apply list.Forall_forall. intros e He.
  destruct (elem_of_completed h past e He) as (t & Ht & _ & [Hc|[_ Hc]]).
  - by apply (fence_request_addresses_own a t); [apply Hpast|].
  - rewrite Hc. simpl. split; [done|by apply Hpast].
Qed.

(** Where an element sits in a list that ends in [x]. *)
Lemma snoc_split {A} (l pre post : list A) (x e : A) :
  l ++ [x] = pre ++ e :: post →
  (pre = l ∧ e = x ∧ post = []) ∨ ∃ post', post = post' ++ [x] ∧ l = pre ++ e :: post'.
Proof.
  revert pre. induction l as [|y l IH]; intros [|p pre] Heq; simplify_eq/=.
  - by left.
  - by destruct pre.
  - right. by exists l.
  - destruct (IH pre) as [(-> & -> & ->)|(post' & -> & ->)]; [done|by left|].
    right. by exists post'.
Qed.

Lemma released_after_fence_nil : released_after_fence [].
Proof. intros [|? ?] ? ? ? ? ?; done. Qed.

Lemma released_after_fence_other evs e :
  released_after_fence evs → is_release (call e) = false →
  released_after_fence (evs ++ [e]).
Proof.
  intros Hevs He pre e' post task t Heq Hcall.
  apply snoc_split in Heq as [(-> & -> & ->)|(post' & -> & ->)].
  - by rewrite Hcall in He.
  - by apply (Hevs pre e' post' task t).
Qed.

Lemma released_after_fence_release evs c t task kr :
  fence_on t c →
  released_after_fence (evs ++ [Ev c KERN_SUCCESS]) →
  released_after_fence ((evs ++ [Ev c KERN_SUCCESS])
                          ++ [Ev (mach_port_deallocate task t) kr]).
Proof.
  intros Hc Hevs pre e' post task' t' Heq Hcall.
  apply snoc_split in Heq as [(-> & -> & ->)|(post' & -> & Heq)].
  - simpl in Hcall. injection Hcall as _ <-. by exists evs, c.
  - by apply (Hevs pre e' post' task' t').
Qed.

Lemma released_after_fence_completed past : ∀ evs,
  released_after_fence evs → released_after_fence (evs ++ completed h past).
Proof.
  induction past as [|t past IH]; intros evs Hevs; [by rewrite app_nil_r|].
  change (t :: past) with ([t] ++ past).
  rewrite completed_app, app_assoc. apply IH. simpl.
  destruct (fence_request h t) as [c|] eqn:Hc; simpl; [|by rewrite app_nil_r].
  apply fence_request_is_fence in Hc as [Hfence Hon].
  change (evs ++ [Ev c KERN_SUCCESS; Ev (release_request h t) KERN_SUCCESS])
    with (evs ++ [Ev c KERN_SUCCESS] ++ [Ev (release_request h t) KERN_SUCCESS]).
  rewrite app_assoc. apply released_after_fence_release; [done|].
  apply released_after_fence_other; [done|]. by apply is_fence_not_release.
Qed.

End Further.

(** X1: when the enumeration is granted and lists no thread, the call
    makes two kernel calls, the enumeration and the deallocation of the
    empty list (size 0), on every build target and OS build.  It returns
    0 with the task's ports and regions as at entry when the deallocation
    is granted, and -5 when it is refused. *)
Theorem empty_enumeration_only_deallocates (h : Host) (w : World) :
  kern_return (kernel h) (trace w) (enumeration_request h) = KERN_SUCCESS →
  elems (thread_list (kernel h) (trace w)) = [] →
  ∃ kr,
    invocation_events w (snd (flush_process_write_buffers h w))
    = [Ev (task_threads (mach_task_self h)) KERN_SUCCESS;
       Ev (vm_deallocate (mach_task_self h)
             (base (thread_list (kernel h) (trace w))) 0) kr] ∧
    ((kr = KERN_SUCCESS ∧
      fst (flush_process_write_buffers h w) = status_code Success ∧
      ports (snd (flush_process_write_buffers h w)) = ports w ∧
      regions (snd (flush_process_write_buffers h w)) = regions w) ∨
     (kr ≠ KERN_SUCCESS ∧
      fst (flush_process_write_buffers h w) = status_code ListDeallocationFailed)).
Proof.
  intros Henum Hempty.
  destruct (flush_process_write_buffers_exits h w)
    as (held & list_held & Hexit & Hports & Hregions).
  assert (Hlist : list_request h (thread_list (kernel h) (trace w))
                  = vm_deallocate (mach_task_self h)
                      (base (thread_list (kernel h) (trace w))) 0)
    by (unfold list_request; by rewrite Hempty).
  destruct Hexit as [Hfailed|past t rest _ Ha _ _|past t rest c kr _ Ha _ _ _
                    |past t rest c kr _ Ha _ _ _|kr _ _ Hkr| _ _];
    try done; try (rewrite Hempty in Ha; by destruct past).
  - exists kr. rewrite Hempty, Hlist. simpl. split; [done|]. by right.
  - exists KERN_SUCCESS. rewrite Hempty, Hlist. simpl. split; [done|]. left.
    rewrite Hports, Hregions. simpl. split_and!; [done|done|multiset_solver..].
Qed.

Lemma empty_enumeration_only_deallocates_witness :
  (kern_return (kernel Examples.other_on_sierra_no_threads) (trace Examples.w0)
     (enumeration_request Examples.other_on_sierra_no_threads) = KERN_SUCCESS ∧
   elems (thread_list (kernel Examples.other_on_sierra_no_threads) (trace Examples.w0))
   = []) ∧
  ∃ kr,
    invocation_events Examples.w0
      (snd (flush_process_write_buffers Examples.other_on_sierra_no_threads Examples.w0))
    = [Ev (task_threads 259) KERN_SUCCESS; Ev (vm_deallocate 259 4096 0) kr].
Proof.
  split; [split; reflexivity|].
  destruct (empty_enumeration_only_deallocates Examples.other_on_sierra_no_threads
              Examples.w0 eq_refl eq_refl) as (kr & Hevs & _).
  exists kr. exact Hevs.
Defined.

(** X2: when the call returns 0, its kernel calls are, in this order and
    all granted: the enumeration; for each enumerated thread in
    enumeration order the fence request followed at once by the release
    of its handle; the deallocation of the list.  That is two calls per
    thread and two more. *)
Theorem success_trace_in_enumeration_order (h : Host) (w : World) :
  fst (flush_process_write_buffers h w) = status_code Success →
  Forall (has_fence_path h) (elems (thread_list (kernel h) (trace w))) ∧
  invocation_events w (snd (flush_process_write_buffers h w))
  = Ev (enumeration_request h) KERN_SUCCESS
      :: completed h (elems (thread_list (kernel h) (trace w)))
      ++ [Ev (list_request h (thread_list (kernel h) (trace w))) KERN_SUCCESS] ∧
  length (invocation_events w (snd (flush_process_write_buffers h w)))
  = (2 * length (elems (thread_list (kernel h) (trace w))) + 2)%nat.
Proof.
  intros Hr.
  destruct (flush_process_write_buffers_exits h w) as (held & list_held & Hexit & _).
  rewrite Hr in Hexit. simpl in Hexit.
  inversion Hexit as [| | | | |_ Hall Hevs]. split_and!; [done|done|].
  simpl. rewrite length_app, (length_completed h _ Hall). simpl. lia.
Qed.

Lemma success_trace_in_enumeration_order_witness :
  fst (flush_process_write_buffers Examples.granted_aarch64_sierra Examples.w0)
  = status_code Success ∧
  length (invocation_events Examples.w0
            (snd (flush_process_write_buffers Examples.granted_aarch64_sierra
                    Examples.w0)))
  = (2 * length (elems (thread_list (kernel Examples.granted_aarch64_sierra)
                          (trace Examples.w0))) + 2)%nat.
Proof.
  assert (Hr : fst (flush_process_write_buffers Examples.granted_aarch64_sierra
                      Examples.w0) = status_code Success)
    by (vm_compute; reflexivity).
  split; [exact Hr|].
  exact (proj2 (proj2 (success_trace_in_enumeration_order
                         Examples.granted_aarch64_sierra Examples.w0 Hr))).
Defined.

(** X3: a kernel call that is refused is the last call of the invocation,
    every call before it was granted, and the status returned tells which
    call it was: -1 for the enumeration, -3 for a fence request, -4 for
    the release of a handle, -5 for the deallocation of the list. *)
Theorem refused_call_is_last_and_gives_status
    (h : Host) (w : World) (pre post : list Event) (e : Event) :
  invocation_events w (snd (flush_process_write_buffers h w)) = pre ++ e :: post →
  result e ≠ KERN_SUCCESS →
  post = [] ∧ Forall succeeded pre ∧
  fst (flush_process_write_buffers h w) = status_of_refused (call e).
Proof.
  intros Hevs Hfailed.
  destruct (flush_process_write_buffers_exits h w) as (held & list_held & Hexit & _).
  rewrite Hevs in Hexit.
  remember (pre ++ e :: post) as evs eqn:Hsplit.
  assert (Hgood : ∀ past,
             Forall succeeded (Ev (enumeration_request h) KERN_SUCCESS :: completed h past))
    by (intros past; constructor; [done|apply completed_succeeded]).
  destruct Hexit as [Hkr|past t rest _ _ _ Hnone|past t rest c kr _ _ _ Hc Hkr
                    |past t rest c kr _ _ _ Hc Hkr|kr _ _ Hkr| _ _].
  - apply (failed_event_last []) in Hsplit as (-> & -> & ->); done.
  - by apply all_succeeded_no_failure in Hsplit.
  - rewrite app_comm_cons in Hsplit.
    apply failed_event_last in Hsplit as (-> & -> & ->); [|done..].
    apply fence_request_is_fence in Hc as [Hc _].
    split_and!; [done|done|]. simpl. by rewrite is_fence_status_of_refused.
  - assert (Hgood' : Forall succeeded
                       (Ev (enumeration_request h) KERN_SUCCESS
                          :: completed h past ++ [Ev c KERN_SUCCESS])).
    { constructor; [done|].
      apply Forall_app. split; [apply completed_succeeded|by constructor]. }
    rewrite !app_comm_cons in Hsplit.
    apply failed_event_last in Hsplit as (-> & -> & ->); done.
  - rewrite app_comm_cons in Hsplit.
    apply failed_event_last in Hsplit as (-> & -> & ->); done.
  - rewrite app_comm_cons in Hsplit.
    apply all_succeeded_no_failure in Hsplit; [done| |done].
    apply Forall_app. split; [done|by constructor].
Qed.

Lemma refused_call_is_last_and_gives_status_witness :
  (invocation_events Examples.w0
     (snd (flush_process_write_buffers Examples.release_refused Examples.w0))
   = [Ev (task_threads 259) 0; Ev (thread_get_register_pointer_values 7 128) 0]
     ++ Ev (mach_port_deallocate 259 7) 5 :: [] ∧
   result (Ev (mach_port_deallocate 259 7) 5) ≠ KERN_SUCCESS) ∧
  fst (flush_process_write_buffers Examples.release_refused Examples.w0)
  = status_code HandleReleaseFailed.
Proof.
  assert (Hevs : invocation_events Examples.w0
                   (snd (flush_process_write_buffers Examples.release_refused
                           Examples.w0))
                 = [Ev (task_threads 259) 0;
                    Ev (thread_get_register_pointer_values 7 128) 0]
                   ++ Ev (mach_port_deallocate 259 7) 5 :: [])
    by (vm_compute; reflexivity).
  assert (Hfailed : result (Ev (mach_port_deallocate 259 7) 5) ≠ KERN_SUCCESS)
    by (vm_compute; discriminate).
  split; [split; [exact Hevs|exact Hfailed]|].
  exact (proj2 (proj2 (refused_call_is_last_and_gives_status Examples.release_refused
                         Examples.w0 _ [] _ Hevs Hfailed))).
Defined.

(** X4: every kernel call of an invocation was granted exactly when the
    call returns 0 or -2: each of the other four statuses comes with a
    refused kernel call, and -2 is the one failure the kernel has no part
    in. *)
Theorem all_calls_granted_iff_success_or_unsupported (h : Host) (w : World) :
  Forall succeeded (invocation_events w (snd (flush_process_write_buffers h w))) ↔
  fst (flush_process_write_buffers h w) = status_code Success ∨
  fst (flush_process_write_buffers h w) = status_code ArchitectureUnsupported.
Proof.
  destruct (flush_process_write_buffers_exits h w) as (held & list_held & Hexit & _).
  assert (Hlast : ∀ (l : list Event) e, ¬ succeeded e → ¬ Forall succeeded (l ++ [e])).
  { intros l e He [_ Hl]%Forall_app. by inversion Hl. }
  destruct Hexit as [Hkr|past t rest _ _ _ Hnone|past t rest c kr _ _ _ Hc Hkr
                    |past t rest c kr _ _ _ Hc Hkr|kr _ _ Hkr| _ _]; simpl.
  - split; [intros Hall; by inversion Hall|intros [|]; discriminate].
  - split; [by right|]. intros _. constructor; [done|apply completed_succeeded].
  - split; [|intros [|]; discriminate].
    rewrite app_comm_cons. intros Hall. by apply Hlast in Hall.
  - split; [|intros [|]; discriminate].
    rewrite !app_comm_cons. intros Hall. by apply Hlast in Hall.
  - split; [|intros [|]; discriminate].
    rewrite app_comm_cons. intros Hall. by apply Hlast in Hall.
  - split; [by left|]. intros _. constructor; [done|].
    apply Forall_app. split; [apply completed_succeeded|by constructor].
Qed.

(** X5: a thread handle is released only right after the fence request
    on that thread was granted: every [mach_port_deallocate] of an
    invocation is immediately preceded by a granted fence request on the
    thread it names. *)
Theorem release_only_after_granted_fence (h : Host) (w : World) :
  released_after_fence (invocation_events w (snd (flush_process_write_buffers h w))).
Proof.
  destruct (flush_process_write_buffers_exits h w) as (held & list_held & Hexit & _).
  assert (Hbase : ∀ kr past,
             released_after_fence (Ev (enumeration_request h) kr :: completed h past)).
  { intros kr past.
    apply (released_after_fence_completed h past [Ev (enumeration_request h) kr]).
    by apply (released_after_fence_other [] _ released_after_fence_nil). }
  destruct Hexit as [Hkr|past t rest _ _ _ Hnone|past t rest c kr _ _ _ Hc Hkr
                    |past t rest c kr _ _ _ Hc Hkr|kr _ _ Hkr| _ _].
  - by apply (released_after_fence_other [] _ released_after_fence_nil).
  - apply Hbase.
  - rewrite app_comm_cons. apply released_after_fence_other; [apply Hbase|].
    apply is_fence_not_release. by apply (fence_request_is_fence h t).
  - rewrite !app_comm_cons.
    apply fence_request_is_fence in Hc as [Hfence Hon].
    apply released_after_fence_release; [done|].
    apply released_after_fence_other; [apply Hbase|]. by apply is_fence_not_release.
  - rewrite app_comm_cons. by apply released_after_fence_other; [apply Hbase|].
  - rewrite app_comm_cons. by apply released_after_fence_other; [apply Hbase|].
Qed.

(** X6: every kernel call of an invocation stays within what the
    invocation was given: it is made on the calling task, fence requests
    and releases name enumerated threads only, and the deallocation names
    the address of the enumerated array with 4 bytes per thread. *)
Theorem calls_address_own_task_and_enumerated_threads (h : Host) (w : World) :
  Forall (fun e => addresses_own h (thread_list (kernel h) (trace w)) (call e))
    (invocation_events w (snd (flush_process_write_buffers h w))).
Proof.
  destruct (flush_process_write_buffers_exits h w) as (held & list_held & Hexit & _).
  set (a := thread_list (kernel h) (trace w)) in *.
  assert (Hpast : ∀ past t rest, elems a = past ++ t :: rest →
                    past ⊆ elems a ∧ t ∈ elems a).
  { intros past t rest ->. split.
    - intros u Hu. apply elem_of_app. by left.
    - apply elem_of_app. right. apply elem_of_cons. by left. }
  destruct Hexit as [Hkr|past t rest _ Ha _ Hnone|past t rest c kr _ Ha _ Hc Hkr
                    |past t rest c kr _ Ha _ Hc Hkr|kr _ _ Hkr| _ _].
  - by constructor.
  - destruct (Hpast _ _ _ Ha) as [Hsub Ht].
    constructor; [done|by apply completed_addresses_own].
  - destruct (Hpast _ _ _ Ha) as [Hsub Ht].
    constructor; [done|]. apply Forall_app. split; [by apply completed_addresses_own|].
    constructor; [|done]. by apply (fence_request_addresses_own h a t).
  - destruct (Hpast _ _ _ Ha) as [Hsub Ht].
    constructor; [done|]. rewrite !Forall_app.
    split; [split; [by apply completed_addresses_own|]|].
    + constructor; [|done]. by apply (fence_request_addresses_own h a t).
    + by constructor.
  - constructor; [done|]. apply Forall_app. split; [by apply completed_addresses_own|].
    by constructor.
  - constructor; [done|]. apply Forall_app. split; [by apply completed_addresses_own|].
    by constructor.
Qed.

(** X7: on every return the task still holds every port reference and
    every region it held at entry: an invocation releases nothing but
    what its own enumeration obtained. *)
Theorem entry_resources_are_kept (h : Host) (w : World) :
  ports w ⊆ ports (snd (flush_process_write_buffers h w)) ∧
  regions w ⊆ regions (snd (flush_process_write_buffers h w)).
Proof.
  destruct (flush_process_write_buffers_exits h w)
    as (held & list_held & _ & Hports & Hregions).
  rewrite Hports, Hregions. split; multiset_solver.
Qed.

(** X8: what the task holds after a failure.  When the call returns -2,
    -3 or -4, from inside the loop, it holds beyond what it held at
    entry: the handle of the thread at which it returned, the handles of
    all later threads, and the list; the threads before it are as many as
    releases were granted.  When it returns -5, all handles are released
    and the list is held. *)
Theorem held_after_failure (h : Host) (w : World) :
  let a := thread_list (kernel h) (trace w) in
  let r := flush_process_write_buffers h w in
  (fst r = status_code ArchitectureUnsupported ∨
   fst r = status_code PerThreadFenceFailed ∨
   fst r = status_code HandleReleaseFailed →
   ∃ past t rest,
     elems a = past ++ t :: rest ∧
     length past = granted_releases (invocation_events w (snd r)) ∧
     ports (snd r) = ports w ⊎ list_to_set_disj (t :: rest) ∧
     regions (snd r) = regions w ⊎ {[+ base a +]}) ∧
  (fst r = status_code ListDeallocationFailed →
   ports (snd r) = ports w ∧ regions (snd r) = regions w ⊎ {[+ base a +]}).
Proof.
  intros a r.
  destruct (flush_process_write_buffers_exits h w)
    as (held & list_held & Hexit & Hports & Hregions).
  fold a r in Hexit, Hports, Hregions.
  pose proof (held_after_granted_releases h a _ _ _ _ _ Hexit) as Hheld.
  rewrite Hports, Hregions. clear Hports Hregions.
  destruct Hexit as [Hkr|past t rest _ Ha _ Hnone|past t rest c kr _ Ha _ Hc Hkr
                    |past t rest c kr _ Ha _ Hc Hkr|kr _ _ Hkr| _ _]; simpl.
  1, 6: split; [intros [|[|]]; discriminate|discriminate].
  1-3: split; [intros _|discriminate]; exists past, t, rest;
       destruct Hheld as [|Hheld]; [done|];
       split_and!; [done| |done|done];
       apply (f_equal length) in Hheld;
       rewrite Ha, length_drop, length_app in Hheld; simpl in Hheld; lia.
  clear Hheld. split; [intros [|[|]]; discriminate|intros _; split; multiset_solver].
Qed.

(** X9: the call returns -2 exactly when all four hold: the build target
    is neither x86-64 nor ARM64, the OS check of line 45 fails, the
    enumeration was granted, and it lists at least one thread. *)
Theorem architecture_unsupported_iff (h : Host) (w : World) :
  fst (flush_process_write_buffers h w) = status_code ArchitectureUnsupported ↔
  target h = other_target ∧
  builtin_available_macOS_10_14_iOS_12 (os h) = false ∧
  kern_return (kernel h) (trace w) (enumeration_request h) = KERN_SUCCESS ∧
  elems (thread_list (kernel h) (trace w)) ≠ [].
Proof.
  destruct (flush_process_write_buffers_exits h w) as (held & list_held & Hexit & _).
  assert (Hnone : target h = other_target →
                  builtin_available_macOS_10_14_iOS_12 (os h) = false →
                  ∀ t, fence_request h t = None)
    by (intros Htarget Hos t; unfold fence_request; by rewrite Hos, Htarget).
  assert (Hall : target h = other_target →
                 builtin_available_macOS_10_14_iOS_12 (os h) = false →
                 elems (thread_list (kernel h) (trace w)) ≠ [] →
                 ¬ Forall (has_fence_path h) (elems (thread_list (kernel h) (trace w)))).
  { intros Htarget Hos Hthreads Hall.
    destruct Hall as [|t ths [c Hc] _]; [done|]. by rewrite Hnone in Hc. }
  destruct Hexit as [Hkr|past t rest Henum Ha _ Hc|past t rest c kr _ _ _ Hc _
                    |past t rest c kr _ _ _ Hc _|kr _ Hpath _| _ Hpath]; simpl.
  - split; [discriminate|]. by intros (_ & _ & Henum & _).
  - split; [intros _|done]. unfold fence_request in Hc.
    destruct (builtin_available_macOS_10_14_iOS_12 (os h)); [done|].
    destruct (target h); try done.
    split_and!; [done|done|done|]. rewrite Ha. by destruct past.
  - split; [discriminate|]. intros (Htarget & Hos & _). by rewrite Hnone in Hc.
  - split; [discriminate|]. intros (Htarget & Hos & _). by rewrite Hnone in Hc.
  - split; [discriminate|]. intros (Htarget & Hos & _ & Hthreads). by destruct Hall.
  - split; [discriminate|]. intros (Htarget & Hos & _ & Hthreads). by destruct Hall.
Qed.

(** X10: on a build for which [is_supported] returns 1, the call never
    returns -2, on any OS build and whatever the kernel answers: checking
    [is_supported] first, as the comment of lines 61-63 asks, rules the
    status out. *)
Theorem supported_never_architecture_unsupported (h : Host) (w w' : World) :
  fst (is_supported h w) = 1 →
  fst (flush_process_write_buffers h w') ≠ status_code ArchitectureUnsupported.
Proof.
  intros Hsupported.
  assert (Hsome : ∀ t, fence_request h t ≠ None).
  { intros t. unfold fence_request.
    destruct (builtin_available_macOS_10_14_iOS_12 (os h)); [done|].
    unfold is_supported, function, return_ in Hsupported.
    by destruct (target h). }
  destruct (flush_process_write_buffers_exits h w') as (held & list_held & Hexit & _).
  destruct Hexit as [| past t rest _ _ _ Hnone | | | |]; simpl; try discriminate.
  by destruct (Hsome t).
Qed.

Lemma supported_never_architecture_unsupported_witness :
  fst (is_supported Examples.second_fence_refused Examples.w0) = 1 ∧
  fst (flush_process_write_buffers Examples.second_fence_refused Examples.w0)
  ≠ status_code ArchitectureUnsupported.
Proof.
  split; [reflexivity|].
  exact (supported_never_architecture_unsupported Examples.second_fence_refused
           Examples.w0 Examples.w0 eq_refl).
Defined.

(** X11: an invocation makes at most two kernel calls per enumerated
    thread and two more, no call is repeated after a failure; it makes
    exactly that many when it gets as far as deallocating the list, that
    is when it returns 0 or -5. *)
Theorem kernel_calls_bounded (h : Host) (w : World) :
  let n := length (elems (thread_list (kernel h) (trace w))) in
  let r := flush_process_write_buffers h w in
  (length (invocation_events w (snd r)) ≤ 2 * n + 2)%nat ∧
  (length (invocation_events w (snd r)) = (2 * n + 2)%nat ↔
   fst r = status_code Success ∨ fst r = status_code ListDeallocationFailed).
Proof.
  intros n r.
  destruct (flush_process_write_buffers_exits h w) as (held & list_held & Hexit & _).
  fold r in Hexit. subst n.
  destruct Hexit as [Hkr|past t rest _ Ha Hpast Hnone|past t rest c kr _ Ha Hpast Hc Hkr
                    |past t rest c kr _ Ha Hpast Hc Hkr|kr _ Hpast Hkr| _ Hpast]; simpl;
    rewrite ?Ha, ?length_app, ?(length_completed h _ Hpast), ?length_app; simpl.
  - split; [lia|]. split; [lia|intros [|]; discriminate].
  - split; [lia|]. split; [lia|intros [|]; discriminate].
  - split; [lia|]. split; [lia|intros [|]; discriminate].
  - split; [lia|]. split; [lia|intros [|]; discriminate].
  - split; [lia|]. split; [by right|lia].
  - split; [lia|]. split; [by left|lia].
Qed.
